(** * play: a parser for music "play" strings (play.c)

    A shallow embedding of [note_to_freq], [play_note] and [play] of
    play.c, and the properties of the parser checked against it.

    Conventions of the embedding.
    - A C string is a [string]: the bytes of the buffer, with the
      terminating NUL implicit at the end.  A NUL byte inside the [string]
      ends the scan exactly as it does in C ([*s] is false there).
    - A [char] is an [ascii]; comparisons and [*s - '0'] go through its
      code [code c].  Signedness of [char] plays no role: every test of
      the parser is against codes below 128.
    - [int] variables are [Z].  [octave] stays in 0..9, [duration] in
      0..99, and [pos] is bounded by the length of the input, so no
      wrap-around is reachable for inputs shorter than 2^31 bytes.
    - The callback [tonew] is modelled by the list of its calls, in order:
      a computation returns its value together with the calls it made.
      A computation is [None] when it hits undefined behaviour (the only
      candidate in play.c is the integer division [1000 / duration]).
    - [double] arithmetic of [note_to_freq] is idealised over the real
      numbers: [pow] is [Rpower], [round] rounds half away from zero.
      The parser never looks into a frequency, so its properties hold of
      [note_to_freq] as a black box; only the frequency values and
      bounds computed in the sections on frequencies and on octaves 0
      and 1 rest on this reading. *)

From Stdlib Require Import ZArith Bool List String Ascii Lia.
From Stdlib Require Import Reals Lra.
Import ListNotations.

Local Open Scope char_scope.
Local Open Scope Z_scope.

(** ** Characters *)

Definition code (c : ascii) : Z := Z.of_N (N_of_ascii c).

(** [lo <= c && c <= hi] on character codes. *)
Definition between (lo hi c : ascii) : bool :=
  (code lo <=? code c) && (code c <=? code hi).

(** <ctype.h>, "C" locale. *)
Definition isdigit (c : ascii) : bool := between "0" "9" c.

Definition toupper (c : ascii) : ascii :=
  if between "a" "z" c then ascii_of_N (N_of_ascii c - 32) else c.

(** [!*s]: the byte is the terminator. *)
Definition is_nul (c : ascii) : bool := code c =? 0.

(** The value 0 an [int half_tone] holds when no accidental was read. *)
Definition no_half : ascii := zero.

(** ** Calls of the tone callback, and computations that make them *)

(** One call [tonew(frequency, gap)]. *)
Definition tone : Type := (Z * Z)%type.

Definition M (A : Type) : Type := option (A * list tone).

Definition ret {A} (a : A) : M A := Some (a, []).

Definition bind {A B} (m : M A) (k : A -> M B) : M B :=
  match m with
  | None => None
  | Some (a, out) =>
      match k a with
      | None => None
      | Some (b, out') => Some (b, out ++ out')
      end
  end.

Notation "x <- m ;; k" := (bind m (fun x => k))
  (at level 61, m at next level, right associativity).
Notation "m ;;; k" := (bind m (fun _ => k))
  (at level 61, right associativity).

Definition tonew (freq gap : Z) : M unit := Some (tt, [(freq, gap)]).

(** C integer division: truncating, undefined on a zero divisor. *)
Definition c_div (a b : Z) : M Z :=
  if b =? 0 then None else ret (Z.quot a b).

(** ** note_to_freq *)

(** [round] of <math.h>: nearest integer, halfway cases away from zero. *)
Definition round (x : R) : Z :=
  if Rle_dec 0 x then Int_part (x + / 2) else - Int_part (- x + / 2).

(** The two [switch] statements of [note_to_freq]. *)
Definition half_steps (note half : ascii) : Z :=
  let half_steps :=
    match note with
    | "C" => -21
    | "D" => -19
    | "E" => -17
    | "F" => -16
    | "G" => -14
    | "A" => -12
    | "B" => -10
    | _ => 0
    end in
  match half with
  | "#" | "+" => half_steps + 1
  | "-" => half_steps - 1
  | _ => half_steps
  end.

Definition base_freq : R := 55.

Definition note_to_freq (note half : ascii) (octave : Z) : Z :=
  let freq := (Rpower 2 (IZR (half_steps note half) / 12) * base_freq)%R in
  let freq :=
    if 1 <? octave then (freq * Rpower 2 (IZR octave))%R
    else if octave <? 1 then (freq / Rpower 2 (IZR (- octave)))%R
    else freq in
  round freq.

(** ** play_note *)

Definition play_note (note half_tone : ascii) (octave duration : Z) : M unit :=
  let note := toupper note in
  if 1 <=? duration then
    gap <- c_div 1000 duration ;;
    tonew (if negb (Ascii.eqb note "R") then note_to_freq note half_tone octave
           else 0) gap
  else ret tt.

(** ** play *)

Inductive parsing_state : Type := COMMAND | OCTAVE_NUMBER.

(** The local variables of [play] that live across loop iterations
    ([s] and [pos] are the loop's own).  [note] is uninitialised in C
    until the first note letter; it is only read under [pending_note]. *)
Record locals : Type := mkLocals {
  state : parsing_state;
  octave : Z;
  note : ascii;
  duration : Z;
  half_tone : ascii;
  pending_note : bool;
  length_specified : bool
}.

Definition init : locals :=
  {| state := COMMAND; octave := 4; note := zero; duration := 1;
     half_tone := no_half; pending_note := false;
     length_specified := false |}.

(** What one iteration of the loop body does: go on with new locals, or
    [return pos]. *)
Inductive flow : Type :=
  | Continue (l : locals)
  | ReturnPos.

Definition is_note_or_rest (c : ascii) : bool :=
  between "a" "g" c || between "A" "G" c || Ascii.eqb c "r" || Ascii.eqb c "R".

Definition is_octave_marker (c : ascii) : bool :=
  Ascii.eqb c "o" || Ascii.eqb c "O".

Definition is_half_tone (c : ascii) : bool :=
  Ascii.eqb c "#" || Ascii.eqb c "+" || Ascii.eqb c "-".

(** The body of the [for] loop at character [c]; [last] is [!*(s + 1)]. *)
Definition step (l : locals) (c : ascii) (last : bool) : M flow :=
  match state l with
  | COMMAND =>
      if is_note_or_rest c then
        (if pending_note l
         then play_note (note l) (half_tone l) (octave l) (duration l)
         else ret tt) ;;;
        let l' := {| state := state l; octave := octave l; note := c;
                     duration := 1; half_tone := no_half;
                     pending_note := true; length_specified := false |} in
        (if last
         then play_note (note l') (half_tone l') (octave l') (duration l')
         else ret tt) ;;;
        ret (Continue l')
      else if is_octave_marker c then
        if pending_note l then
          play_note (note l) (half_tone l) (octave l) (duration l) ;;;
          ret (Continue {| state := OCTAVE_NUMBER; octave := octave l;
                           note := note l; duration := duration l;
                           half_tone := half_tone l; pending_note := false;
                           length_specified := false |})
        else
          ret (Continue {| state := OCTAVE_NUMBER; octave := octave l;
                           note := note l; duration := duration l;
                           half_tone := half_tone l;
                           pending_note := pending_note l;
                           length_specified := length_specified l |})
      else if pending_note l then
        if negb (length_specified l) then
          if is_half_tone c && negb (Ascii.eqb (note l) "r")
                            && negb (Ascii.eqb (note l) "R") then
            ret (Continue {| state := state l; octave := octave l;
                             note := note l; duration := duration l;
                             half_tone := c;
                             pending_note := pending_note l;
                             length_specified := length_specified l |})
          else if isdigit c then
            ret (Continue {| state := state l; octave := octave l;
                             note := note l; duration := code c - code "0";
                             half_tone := half_tone l;
                             pending_note := pending_note l;
                             length_specified := true |})
          else ret ReturnPos
        else if isdigit c then
          let duration' := duration l * 10 + code c - code "0" in
          play_note (note l) (half_tone l) (octave l) duration' ;;;
          ret (Continue {| state := COMMAND; octave := octave l;
                           note := note l; duration := duration';
                           half_tone := half_tone l; pending_note := false;
                           length_specified := false |})
        else ret ReturnPos
      else ret (Continue l)
  | OCTAVE_NUMBER =>
      if isdigit c then
        ret (Continue {| state := COMMAND; octave := code c - code "0";
                         note := note l; duration := duration l;
                         half_tone := half_tone l;
                         pending_note := pending_note l;
                         length_specified := length_specified l |})
      else ret ReturnPos
  end.

(** [!*(s + 1)] seen from the rest of the buffer after the current byte. *)
Definition at_end (rest : string) : bool :=
  match rest with
  | EmptyString => true
  | String c _ => is_nul c
  end.

(** The [for] loop from locals [l], offset [pos] and remaining input [s].
    The result is the value [play] returns, with the locals at that point. *)
Fixpoint play_from (l : locals) (pos : Z) (s : string) : M (Z * locals) :=
  match s with
  | EmptyString => ret (-1, l)
  | String c rest =>
      if is_nul c then ret (-1, l)
      else
        f <- step l c (at_end rest) ;;
        match f with
        | Continue l' => play_from l' (pos + 1) rest
        | ReturnPos => ret (pos, l)
        end
  end.

(** [play]: the loop from the initial locals; the locals are dropped on
    return. *)
Definition play (s : string) : M Z :=
  r <- play_from init 0 s ;; ret (fst r).

(** * Vocabulary of the properties *)

(** The frequency [play_note] passes to the callback. *)
Definition freq_of (note half_tone : ascii) (octave : Z) : Z :=
  if negb (Ascii.eqb (toupper note) "R")
  then note_to_freq (toupper note) half_tone octave
  else 0.

(** The calls of [play_note], as a list. *)
Definition emitted (note half_tone : ascii) (octave duration : Z) : list tone :=
  if 1 <=? duration
  then [(freq_of note half_tone octave, Z.quot 1000 duration)]
  else [].

(** The calls made when a pending note, if any, is flushed. *)
Definition flush (l : locals) : list tone :=
  if pending_note l
  then emitted (note l) (half_tone l) (octave l) (duration l)
  else [].

(** [m] preceded by the calls [out]. *)
Definition after {A} (out : list tone) (m : M A) : M A :=
  bind (Some (tt, out)) (fun _ => m).

(** What [play] returns when its loop is entered with locals [l] at offset
    [pos] on the remaining input [s]; [play s] is [play_rest init 0 s]. *)
Definition play_rest (l : locals) (pos : Z) (s : string) : M Z :=
  r <- play_from l pos s ;; ret (fst r).

(** The locals after a note letter or rest [c]. *)
Definition open_note (l : locals) (c : ascii) : locals :=
  {| state := state l; octave := octave l; note := c; duration := 1;
     half_tone := no_half; pending_note := true; length_specified := false |}.

(** No byte of [s] is the terminator. *)
Fixpoint nonul (s : string) : bool :=
  match s with
  | EmptyString => true
  | String c rest => negb (is_nul c) && nonul rest
  end.

(** The iterations of the loop over [s] when [s] is followed by a further
    character: every iteration sees [*(s + 1)] non-NUL.  The result is the
    locals the next iteration starts from, or [ReturnPos] if a character
    of [s] was rejected. *)
Fixpoint scan (l : locals) (s : string) : M flow :=
  match s with
  | EmptyString => ret (Continue l)
  | String c rest =>
      f <- step l c false ;;
      match f with
      | Continue l' => scan l' rest
      | ReturnPos => ret ReturnPos
      end
  end.

(** What holds of the locals at the head of every iteration: the octave
    is a digit's value or the initial 4, a pending note is only ever held
    in state [COMMAND], and once a duration digit was read the duration
    is that digit's value. *)
Definition wf (l : locals) : Prop :=
  0 <= octave l <= 9 /\
  (pending_note l = true -> state l = COMMAND) /\
  (length_specified l = true -> pending_note l = true) /\
  (length_specified l = true -> 0 <= duration l <= 9) /\
  (pending_note l = true -> length_specified l = false ->
   duration l = 1) /\
  (pending_note l = true -> is_note_or_rest (note l) = true).

(** The locals after the second duration digit [c] closed the note. *)
Definition close_note (l : locals) (c : ascii) : locals :=
  {| state := COMMAND; octave := octave l; note := note l;
     duration := duration l * 10 + code c - code "0";
     half_tone := half_tone l; pending_note := false;
     length_specified := false |}.

(** The lower-case letters the parser reads as commands. *)
Definition is_lower_command (c : ascii) : bool :=
  between "a" "g" c || Ascii.eqb c "r" || Ascii.eqb c "o".

(** [c] with a lower-case command letter replaced by its upper-case
    form. *)
Definition upcase (c : ascii) : ascii :=
  if is_lower_command c then toupper c else c.

(** [s] with every lower-case command letter in upper case. *)
Fixpoint upcase_string (s : string) : string :=
  match s with
  | EmptyString => EmptyString
  | String c rest => String (upcase c) (upcase_string rest)
  end.

(** The same, on the note letter the locals hold. *)
Definition upcase_locals (l : locals) : locals :=
  {| state := state l; octave := octave l; note := upcase (note l);
     duration := duration l; half_tone := half_tone l;
     pending_note := pending_note l;
     length_specified := length_specified l |}.

Definition map_result {A B} (f : A -> B) (m : M A) : M B :=
  match m with
  | Some (a, out) => Some (f a, out)
  | None => None
  end.

Definition upcase_flow (f : flow) : flow :=
  match f with
  | Continue l => Continue (upcase_locals l)
  | ReturnPos => ReturnPos
  end.

(** ** Vocabulary of the further properties *)

(** The locals after the octave command: marker, then digit [d]. *)
Definition set_octave (l : locals) (d : ascii) : locals :=
  {| state := COMMAND; octave := code d - code "0"; note := note l;
     duration := duration l; half_tone := half_tone l;
     pending_note := false; length_specified := false |}.

(** The locals after an accidental [c] on the pending note. *)
Definition set_half_tone (l : locals) (c : ascii) : locals :=
  {| state := state l; octave := octave l; note := note l;
     duration := duration l; half_tone := c;
     pending_note := pending_note l;
     length_specified := length_specified l |}.

(** The locals after the first duration digit [c] of the pending note. *)
Definition set_duration (l : locals) (c : ascii) : locals :=
  {| state := state l; octave := octave l; note := note l;
     duration := code c - code "0"; half_tone := half_tone l;
     pending_note := pending_note l; length_specified := true |}.

(** The pending note is a rest: the negation of the test
    [note != 'r' && note != 'R']. *)
Definition is_rest (c : ascii) : bool := Ascii.eqb c "r" || Ascii.eqb c "R".

(** A value [half_tone] can hold: 0, or one of the three accidentals. *)
Definition is_half_tone_or_none (h : ascii) : bool :=
  is_nul h || is_half_tone h.

(** What every call of the callback looks like: a gap from 10 to 1000,
    and a frequency that is 0 (a rest) or that of an upper-case letter A
    to G, with or without accidental, at an octave from 0 to 9. *)
Definition valid_call (t : tone) : Prop :=
  10 <= snd t <= 1000 /\
  (fst t = 0 \/
   exists n h o,
     between "A" "G" n = true /\ is_half_tone_or_none h = true /\
     0 <= o <= 9 /\ fst t = note_to_freq n h o).

(** [wf], and the accidental held is one [half_tone] can hold. *)
Definition wf_half (l : locals) : Prop :=
  wf l /\ is_half_tone_or_none (half_tone l) = true.

(** The number of note letters and rests in [s]. *)
Fixpoint count_notes (s : string) : nat :=
  match s with
  | EmptyString => 0%nat
  | String c rest =>
      ((if is_note_or_rest c then 1 else 0) + count_notes rest)%nat
  end.

(** Every character of [s] is a note letter or a rest. *)
Fixpoint all_notes (s : string) : bool :=
  match s with
  | EmptyString => true
  | String c rest => is_note_or_rest c && all_notes rest
  end.

(** 1 when a note is pending, else 0. *)
Definition pending_count (l : locals) : nat :=
  if pending_note l then 1%nat else 0%nat.

(** [s] with [g] applied to every character. *)
Fixpoint map_string (g : ascii -> ascii) (s : string) : string :=
  match s with
  | EmptyString => EmptyString
  | String c rest => String (g c) (map_string g rest)
  end.

(** [+] written as [#]. *)
Definition sharp (c : ascii) : ascii :=
  if Ascii.eqb c "+" then "#" else c.

Definition sharp_locals (l : locals) : locals :=
  {| state := state l; octave := octave l; note := note l;
     duration := duration l; half_tone := sharp (half_tone l);
     pending_note := pending_note l;
     length_specified := length_specified l |}.

(** Octaves that [note_to_freq] does not tell apart: equal, or 0 and 1. *)
Definition same_pitch_octave (o o' : Z) : Prop :=
  o = o' \/ ((o = 0 \/ o = 1) /\ (o' = 0 \/ o' = 1)).

(** Locals that agree but for such octaves. *)
Definition same_but_octave (l l' : locals) : Prop :=
  state l = state l' /\ note l = note l' /\ duration l = duration l' /\
  half_tone l = half_tone l' /\ pending_note l = pending_note l' /\
  length_specified l = length_specified l' /\
  same_pitch_octave (octave l) (octave l').

(** Two outcomes of an iteration agree: the same calls, and both return
    or both go on, with locals related by [R]. *)
Definition flow_agree (R : locals -> locals -> Prop)
    (m m' : M flow) : Prop :=
  match m, m' with
  | Some (Continue l1, o1), Some (Continue l1', o1') => R l1 l1' /\ o1 = o1'
  | Some (ReturnPos, o1), Some (ReturnPos, o1') => o1 = o1'
  | _, _ => False
  end.

(** * Properties *)

(** ** The calls one [play_note] makes *)

Lemma play_note_emitted note half_tone octave duration :
  play_note note half_tone octave duration
  = Some (tt, emitted note half_tone octave duration).
Proof.
  unfold play_note, emitted, freq_of, c_div.
  destruct (1 <=? duration) eqn:Hd; [|reflexivity].
  apply Z.leb_le in Hd.
  destruct (duration =? 0) eqn:H0; [apply Z.eqb_eq in H0; lia|].
  reflexivity.
Qed.

(** ** Monad laws used below *)

Lemma bind_Some {A B} (a : A) (out : list tone) (k : A -> M B) :
  bind (Some (a, out)) k
  = match k a with
    | None => None
    | Some (b, out') => Some (b, out ++ out')
    end.
Proof. reflexivity. Qed.

Lemma after_nil {A} (m : M A) : after [] m = m.
Proof. unfold after. rewrite bind_Some. destruct m as [[a o]|]; reflexivity. Qed.

Lemma after_app {A} (o1 o2 : list tone) (m : M A) :
  after (o1 ++ o2) m = after o1 (after o2 m).
Proof.
  unfold after. rewrite !bind_Some.
  destruct m as [[a o]|]; [|reflexivity].
  now rewrite app_assoc.
Qed.

(** ** One iteration *)

(** A note letter or rest in state [COMMAND]: the pending note is flushed,
    the new note is opened, and played at once if it ends the input. *)
Lemma step_note l c last :
  state l = COMMAND -> is_note_or_rest c = true ->
  step l c last
  = Some (Continue (open_note l c),
          flush l ++ (if last then emitted c no_half (octave l) 1 else [])).
Proof.
  intros Hs Hc. unfold step, flush. rewrite Hs, Hc.
  destruct (pending_note l); destruct last; cbn [open_note];
    rewrite ?play_note_emitted; cbn -[emitted];
    rewrite ?play_note_emitted; cbn -[emitted];
    rewrite ?app_nil_r; unfold open_note; rewrite ?Hs; reflexivity.
Qed.

(** No iteration is undefined. *)
Lemma step_defined l c last :
  exists f out, step l c last = Some (f, out).
Proof.
  unfold step.
  destruct (state l), (is_note_or_rest c), (is_octave_marker c),
    (pending_note l), (length_specified l), (isdigit c), last;
    cbn -[play_note];
    repeat (rewrite play_note_emitted; cbn -[emitted]);
    try (destruct (is_half_tone c && _ && _); cbn);
    unfold ret; eauto.
Qed.



(** ** The loop as a whole *)

(** [play_from] always returns: no division by zero is reached, and the
    value is -1 or an offset inside the part of the input scanned. *)
Lemma play_from_defined s : forall l pos,
  exists r lf out,
    play_from l pos s = Some ((r, lf), out) /\
    (r = -1 \/ pos <= r < pos + Z.of_nat (length s)).
Proof.
  induction s as [|c rest IH]; intros l pos.
  - exists (-1), l, []. split; [reflexivity | now left].
  - cbn [play_from]. destruct (is_nul c).
    + exists (-1), l, []. split; [reflexivity | now left].
    + destruct (step_defined l c (at_end rest)) as (f & o1 & Hstep).
      rewrite Hstep, bind_Some. destruct f as [l1|].
      * destruct (IH l1 (pos + 1)) as (r & lf & o2 & Hrest & Hr).
        rewrite Hrest. exists r, lf, (o1 ++ o2). split; [reflexivity|].
        cbn [length]. lia.
      * exists pos, l, (o1 ++ []). split; [reflexivity|].
        cbn [length]. lia.
Qed.






(** ** Scanning a part of the input that is followed by more input *)

Lemma play_from_app s : forall l pos l' out t,
  nonul s = true -> at_end t = false ->
  scan l s = Some (Continue l', out) ->
  play_from l pos (s ++ t)
  = after out (play_from l' (pos + Z.of_nat (length s)) t).
Proof.
  induction s as [|c rest IH]; intros l pos l' out t Hs Ht Hscan.
  - cbn in Hscan. injection Hscan as <- <-.
    cbn [append length Z.of_nat]. now rewrite after_nil, Z.add_0_r.
  - cbn [nonul] in Hs. apply andb_prop in Hs as [Hc Hs].
    apply negb_true_iff in Hc.
    cbn [append play_from scan] in *. rewrite Hc.
    assert (He : at_end (rest ++ t) = false).
    { destruct rest as [|c' rest']; [exact Ht|].
      cbn in Hs |- *. apply andb_prop in Hs as [Hc' _].
      now apply negb_true_iff in Hc'. }
    rewrite He.
    destruct (step l c false) as [[f o1]|]; [|discriminate].
    rewrite bind_Some in Hscan. rewrite bind_Some. destruct f as [l1|].
    + destruct (scan l1 rest) as [[f2 o2]|] eqn:Hrest; [|discriminate].
      injection Hscan as -> <-.
      rewrite (IH l1 (pos + 1) l' o2 t Hs Ht Hrest).
      rewrite after_app. cbn [length].
      replace (pos + 1 + Z.of_nat (length rest))
        with (pos + Z.of_nat (S (length rest))) by lia.
      unfold after at 2. rewrite bind_Some.
      destruct (after o2 _) as [[a o]|]; reflexivity.
    + discriminate.
Qed.

Lemma play_app s l out t :
  nonul s = true -> at_end t = false ->
  scan init s = Some (Continue l, out) ->
  play (s ++ t) = after out (play_rest l (Z.of_nat (length s)) t).
Proof.
  intros Hs Ht Hscan. unfold play, play_rest.
  rewrite (play_from_app s init 0 l out t Hs Ht Hscan), Z.add_0_l.
  unfold after. rewrite !bind_Some.
  destruct (play_from l _ t) as [[r o]|]; cbn; [|reflexivity].
  now rewrite !app_nil_r.
Qed.

(** ** Invariants of the locals *)

Lemma wf_init : wf init.
Proof. unfold wf, init; cbn. repeat split; (lia || discriminate). Qed.

Lemma isdigit_value c : isdigit c = true -> 0 <= code c - code "0" <= 9.
Proof.
  unfold isdigit, between. intros H. apply andb_prop in H as [H1 H2].
  apply Z.leb_le in H1, H2. change (code "0") with 48 in *.
  change (code "9") with 57 in *. lia.
Qed.

Lemma step_wf l c last l' out :
  wf l -> step l c last = Some (Continue l', out) -> wf l'.
Proof.
  intros (Ho & Hp & Hl & Hd & Hd1 & Hn). unfold step.
  pose proof (isdigit_value c) as Hdig.
  destruct (state l) eqn:Hst, (is_note_or_rest c) eqn:Hc,
    (is_octave_marker c), (pending_note l) eqn:Hpe,
    (length_specified l) eqn:Hle, (isdigit c), last;
    cbn -[play_note];
    repeat (rewrite play_note_emitted; cbn -[emitted]);
    try (destruct (is_half_tone c && _ && _); cbn);
    unfold ret; intros [= <- _] || intros [=];
    unfold wf; cbn; rewrite ?Hst, ?Hpe, ?Hle;
    repeat split; intros; try discriminate; try congruence; auto; try lia;
    specialize (Hdig eq_refl); change (code "0") with 48 in Hdig; lia.
Qed.

Lemma scan_wf s : forall l l' out,
  wf l -> scan l s = Some (Continue l', out) -> wf l'.
Proof.
  induction s as [|c rest IH]; intros l l' out Hwf Hscan; cbn in Hscan.
  - now injection Hscan as <- _.
  - destruct (step l c false) as [[f o1]|] eqn:Hstep; [|discriminate].
    rewrite bind_Some in Hscan. destruct f as [l1|]; [|discriminate].
    destruct (scan l1 rest) as [[f2 o2]|] eqn:Hrest; [|discriminate].
    injection Hscan as -> _.
    exact (IH _ _ _ (step_wf _ _ _ _ _ Hwf Hstep) Hrest).
Qed.

(** ** Character classes *)

Ltac each_char c :=
  destruct c as [[] [] [] [] [] [] [] []]; try reflexivity; try discriminate.

Lemma octave_marker_class c :
  is_octave_marker c = true -> is_nul c = false /\ is_note_or_rest c = false.
Proof. each_char c; now split. Qed.

Lemma digit_class c :
  isdigit c = true ->
  is_nul c = false /\ is_note_or_rest c = false /\ is_octave_marker c = false.
Proof. each_char c; now repeat split. Qed.

(** ** Command letters in upper case *)

Lemma upcase_note c : is_note_or_rest (upcase c) = is_note_or_rest c.
Proof. each_char c. Qed.

Lemma upcase_octave_marker c : is_octave_marker (upcase c) = is_octave_marker c.
Proof. each_char c. Qed.

Lemma upcase_nul c : is_nul (upcase c) = is_nul c.
Proof. each_char c. Qed.

Lemma upcase_toupper c : toupper (upcase c) = toupper c.
Proof. each_char c. Qed.

Lemma upcase_idem c : upcase (upcase c) = upcase c.
Proof. each_char c. Qed.

Lemma upcase_rest c :
  negb (Ascii.eqb (upcase c) "r") && negb (Ascii.eqb (upcase c) "R")
  = negb (Ascii.eqb c "r") && negb (Ascii.eqb c "R").
Proof. each_char c. Qed.

Lemma upcase_other c :
  is_note_or_rest c = false -> is_octave_marker c = false -> upcase c = c.
Proof. each_char c. Qed.

Lemma upcase_not_digit c :
  is_note_or_rest c || is_octave_marker c = true -> isdigit (upcase c) = false.
Proof. each_char c. Qed.

Lemma not_digit_of_command c :
  is_note_or_rest c || is_octave_marker c = true -> isdigit c = false.
Proof. each_char c. Qed.

Lemma play_note_upcase n h o d : play_note (upcase n) h o d = play_note n h o d.
Proof. unfold play_note. now rewrite upcase_toupper. Qed.

Lemma step_upcase l c last :
  step (upcase_locals l) (upcase c) last
  = map_result upcase_flow (step l c last).
Proof.
  destruct l as [st o n d h p ls].
  unfold step, upcase_locals.
  cbn [state octave note duration half_tone pending_note length_specified].
  rewrite upcase_note, upcase_octave_marker, !play_note_upcase.
  rewrite <- andb_assoc, upcase_rest, andb_assoc.
  destruct (is_note_or_rest c || is_octave_marker c) eqn:Hcmd.
  - rewrite (upcase_not_digit c Hcmd), (not_digit_of_command c Hcmd).
    destruct st; [|reflexivity].
    destruct (is_note_or_rest c) eqn:Hc.
    + rewrite ?play_note_upcase.
      destruct p, last;
        rewrite ?play_note_emitted; cbn -[emitted upcase];
        rewrite ?play_note_emitted; cbn -[emitted upcase];
        rewrite ?upcase_idem; reflexivity.
    + cbn in Hcmd. rewrite Hcmd.
      destruct p;
        rewrite ?play_note_emitted; cbn -[emitted upcase]; reflexivity.
  - apply orb_false_elim in Hcmd as [Hc Ho].
    rewrite (upcase_other c Hc Ho), Hc, Ho.
    destruct st, p, ls, (isdigit c);
      cbn -[play_note upcase];
      rewrite ?play_note_emitted; cbn -[emitted upcase];
      try (destruct (is_half_tone c && _ && _)); reflexivity.
Qed.

Lemma at_end_upcase s : at_end (upcase_string s) = at_end s.
Proof. destruct s as [|c rest]; [reflexivity | apply upcase_nul]. Qed.

Lemma play_from_upcase s : forall l pos,
  play_from (upcase_locals l) pos (upcase_string s)
  = map_result (fun r => (fst r, upcase_locals (snd r))) (play_from l pos s).
Proof.
  induction s as [|c rest IH]; intros l pos; [reflexivity|].
  cbn [upcase_string play_from]. rewrite upcase_nul.
  destruct (is_nul c); [reflexivity|].
  rewrite at_end_upcase, step_upcase.
  destruct (step l c (at_end rest)) as [[f o1]|]; [|reflexivity].
  cbn [map_result]. rewrite !bind_Some.
  destruct f as [l1|]; cbn [upcase_flow].
  - rewrite IH. destruct (play_from l1 (pos + 1) rest) as [[[r lf] o2]|];
      reflexivity.
  - reflexivity.
Qed.

Lemma play_upcase s : play (upcase_string s) = play s.
Proof.
  unfold play. change init with (upcase_locals init) at 1.
  rewrite play_from_upcase.
  destruct (play_from init 0 s) as [[[r lf] out]|]; reflexivity.
Qed.

(** ** Two frequencies *)

Lemma round_nearest (x : R) (n : Z) :
  (0 <= x)%R -> (IZR n - / 2 <= x < IZR n + / 2)%R -> round x = n.
Proof.
  intros H0 [Hlo Hhi]. unfold round.
  destruct (Rle_dec 0 x) as [_|Hneg]; [|contradiction].
  symmetry. apply Int_part_spec. lra.
Qed.

(** Strict bounds on a positive real from bounds on its fourth power. *)
Lemma fourth_root_bounds (y a b q : R) :
  (0 < y)%R -> (0 <= a)%R -> (0 <= b)%R ->
  (y * y * (y * y) = q)%R ->
  (a * a * (a * a) < q)%R -> (q < b * b * (b * b))%R ->
  (a < y < b)%R.
Proof.
  intros Hy Ha Hb Hq Hlo Hhi. split.
  - destruct (Rlt_le_dec a y) as [H|H]; [exact H|exfalso].
    assert (y * y <= a * a)%R by nra.
    assert (y * y * (y * y) <= a * a * (a * a))%R by nra.
    lra.
  - destruct (Rlt_le_dec y b) as [H|H]; [exact H|exfalso].
    assert (b * b <= y * y)%R by nra.
    assert (b * b * (b * b) <= y * y * (y * y))%R by nra.
    lra.
Qed.

(** 2^(-21/12) = 2^(-7/4): its fourth power is 2^(-7). *)
Lemma pitch_C_fourth_power :
  let y := Rpower 2 (IZR (-21) / 12) in
  (0 < y)%R /\ (y * y * (y * y) = / 128)%R.
Proof.
  intros y. assert (Hy : (0 < y)%R) by (unfold y, Rpower; apply exp_pos).
  split; [exact Hy|].
  replace (y * y * (y * y))%R with (y ^ 4)%R by (simpl; ring).
  rewrite <- (Rpower_pow 4 y Hy). unfold y. rewrite Rpower_mult.
  replace (IZR (-21) / 12 * INR 4)%R with (- INR 7)%R by (simpl; lra).
  rewrite Rpower_Ropp, Rpower_pow by lra. simpl. f_equal. lra.
Qed.

(** The two octave factors keep the rounded values apart whatever value of
    at least 1 the [pow] line gives (for C it is close to 16.35), so the
    difference between octaves 4 and 5 does not hang on the last digits
    of [pow]. *)
Lemma round_octave_apart (b : R) :
  (1 <= b)%R -> round (b * 32) <> round (b * 16).
Proof.
  intros Hb Heq. unfold round in Heq.
  destruct (Rle_dec 0 (b * 32)) as [_|H]; [|lra].
  destruct (Rle_dec 0 (b * 16)) as [_|H]; [|lra].
  destruct (base_Int_part (b * 32 + / 2)) as [_ Hlo].
  destruct (base_Int_part (b * 16 + / 2)) as [Hhi _].
  rewrite Heq in Hlo. lra.
Qed.

(** Middle C comes out at 262 Hz, the C an octave above at 523 Hz. *)
Lemma note_to_freq_C4 : note_to_freq "C" no_half 4 = 262.
Proof.
  unfold note_to_freq, base_freq.
  change (half_steps "C" no_half) with (-21).
  change (1 <? 4) with true. cbv iota.
  destruct pitch_C_fourth_power as [Hy H4].
  set (y := Rpower 2 (IZR (-21) / 12)) in *.
  replace (Rpower 2 (IZR 4)) with 16%R
    by (replace (IZR 4) with (INR 4) by (simpl; lra);
        rewrite Rpower_pow by lra; simpl; lra).
  destruct (fourth_root_bounds y (523 / 1760) (525 / 1760) (/ 128))
    as [Hlo Hhi]; try lra.
  apply round_nearest; lra.
Qed.

Lemma note_to_freq_C5 : note_to_freq "C" no_half 5 = 523.
Proof.
  unfold note_to_freq, base_freq.
  change (half_steps "C" no_half) with (-21).
  change (1 <? 5) with true. cbv iota.
  destruct pitch_C_fourth_power as [Hy H4].
  set (y := Rpower 2 (IZR (-21) / 12)) in *.
  replace (Rpower 2 (IZR 5)) with 32%R
    by (replace (IZR 5) with (INR 5) by (simpl; lra);
        rewrite Rpower_pow by lra; simpl; lra).
  destruct (fourth_root_bounds y (1045 / 3520) (1047 / 3520) (/ 128))
    as [Hlo Hhi]; try lra.
  apply round_nearest; lra.
Qed.

Lemma play_from_at_end s l pos :
  at_end s = true -> play_from l pos s = Some ((-1, l), []).
Proof.
  destruct s as [|c rest]; [reflexivity|].
  cbn [at_end play_from]. now intros ->.
Qed.

(** ** The calls made up to a rejected character *)




(** * The claims *)

(** ** C1: a modifier at the end of the input *)

(** C1, as the code behaves.  When the input ends after a modifier, the
    note the modifier belongs to is still pending when the loop ends, and
    [play] returns -1 without playing it: [play("R2")] and [play("C#")]
    make no call at all.  The same notes are played when more input
    follows ([play("R2C")], [play("C#D")]), and a bare letter at the end
    is played through the [!*(s + 1)] test. *)
Theorem play_trailing_modifier_drops_note :
  play "R2" = Some (-1, []) /\
  play "C#" = Some (-1, []) /\
  play "R2C" = Some (-1, [(0, 500); (note_to_freq "C" no_half 4, 1000)]) /\
  play "C#D" = Some (-1, [(note_to_freq "C" "#" 4, 1000);
                          (note_to_freq "D" no_half 4, 1000)]).
Proof. repeat split; reflexivity. Qed.

(** ** C2: a character nothing can be attached to *)

(** C2, as the code behaves.  In state [COMMAND] with no note pending,
    a character that is not a note letter, a rest or an octave marker is
    not rejected: [play("%C")] does not return 0 but passes over the
    [%], plays C and returns -1.  An accidental or a digit with no note
    to attach to is dropped in the same way ([play("#C")],
    [play("R12345R")]).  The same characters are rejected with
    [return pos] wherever else they cannot be read: after a pending note
    ([play("C%")]), after the first duration digit ([play("C1%")]) and
    after an octave marker ([play("O%")]). *)
Lemma play_unattached_char_not_rejected :
  play "%C" = Some (-1, [(note_to_freq "C" no_half 4, 1000)]) /\
  play "%C" <> Some (0, []) /\
  play "#C" = Some (-1, [(note_to_freq "C" no_half 4, 1000)]) /\
  play "R12345R" = Some (-1, [(0, 83); (0, 1000)]) /\
  play "C%" = Some (1, []) /\
  play "C1%" = Some (2, []) /\
  play "O%" = Some (1, []).
Proof.
  split; [reflexivity|]. split; [discriminate|].
  repeat split; reflexivity.
Qed.

(** The general form of that behaviour.  In state [COMMAND] with no note
    pending, a character that is not a note letter, a rest or an octave
    marker is passed over: the iteration makes no call and leaves the
    locals as they are, and the scan goes on with the next character.
    Here [s] is the input scanned so far, [l] the locals it led to and
    [out] the calls it made. *)
Theorem play_skips_unattached_char s l out c t :
  nonul s = true ->
  scan init s = Some (Continue l, out) ->
  state l = COMMAND ->
  pending_note l = false ->
  is_note_or_rest c = false ->
  is_octave_marker c = false ->
  is_nul c = false ->
  step l c (at_end t) = Some (Continue l, []) /\
  play (s ++ String c t)
  = after out (play_rest l (Z.of_nat (length s) + 1) t).
Proof.
  intros Hs Hscan Hst Hp Hc Ho Hn.
  assert (Hstep : step l c (at_end t) = Some (Continue l, [])).
  { unfold step. now rewrite Hst, Hc, Ho, Hp. }
  split; [exact Hstep|].
  rewrite (play_app s l out (String c t) Hs Hn Hscan).
  unfold play_rest. cbn [play_from]. rewrite Hn, Hstep, bind_Some.
  destruct (play_from l _ t) as [[r o]|]; reflexivity.
Qed.

(** At ["C16"] followed by [%] and [D]: the [%] is skipped, D is played. *)
Lemma play_skips_unattached_char_witness :
  step (mkLocals COMMAND 4 "C" 16 no_half false false) "%" false
  = Some (Continue (mkLocals COMMAND 4 "C" 16 no_half false false), []) /\
  play "C16%D" = Some (-1, [(note_to_freq "C" no_half 4, 62);
                            (note_to_freq "D" no_half 4, 1000)]).
Proof.
  exact (play_skips_unattached_char "C16"
           (mkLocals COMMAND 4 "C" 16 no_half false false)
           [(note_to_freq "C" no_half 4, 62)] "%" "D"
           eq_refl eq_refl eq_refl eq_refl eq_refl eq_refl eq_refl).
Defined.

(** ** C3: the return value *)


(** ** C5: the duration guard of play_note *)

(** C5. [play_note] calls the callback exactly when [duration >= 1], then
    once and with gap [1000 / duration]; with [duration < 1] it makes no
    call.  The division is never reached with a zero divisor: neither
    [play_note] nor [play] is ever undefined.  [play("C0D")] flushes C
    with duration 0 and so only plays D. *)
Theorem play_note_duration_guard :
  (forall note half_tone octave duration,
     play_note note half_tone octave duration
     = Some (tt, if 1 <=? duration
                 then [(freq_of note half_tone octave, Z.quot 1000 duration)]
                 else [])) /\
  (forall s, play s <> None) /\
  play "C0D" = Some (-1, [(note_to_freq "D" no_half 4, 1000)]).
Proof.
  split; [exact play_note_emitted|]. split; [|reflexivity].
  intros s. unfold play.
  destruct (play_from_defined s init 0) as (r & lf & out & Hrun & _).
  rewrite Hrun. discriminate.
Qed.

(** ** C6: the second duration digit *)

(** C6. Let a note be pending with one duration digit read
    ([length_specified]), after the input [s] gave locals [l] and calls
    [out]; [duration] is then that digit's value [d1].  At the next
    character that is read as a modifier of the pending note, that is,
    one that is not a note letter, a rest or an octave marker (lines
    163-170 lie in that branch):
    - a decimal digit [d2] flushes the note at once with duration
      [d1 * 10 + d2], the call of [play_note] having gap
      [1000 / (d1 * 10 + d2)], after which no note is pending and the
      scan goes on in state [COMMAND];
    - any character that is not a digit makes [play] return the current
      offset. *)
Theorem play_second_duration_digit s l out c t :
  nonul s = true ->
  scan init s = Some (Continue l, out) ->
  pending_note l = true ->
  length_specified l = true ->
  0 <= duration l <= 9 /\
  (isdigit c = true ->
   play (s ++ String c t)
   = after (out ++ emitted (note l) (half_tone l) (octave l)
                     (duration l * 10 + (code c - code "0")))
       (play_rest (close_note l c) (Z.of_nat (length s) + 1) t)) /\
  (isdigit c = false -> is_note_or_rest c = false ->
   is_octave_marker c = false -> is_nul c = false ->
   play (s ++ String c t) = Some (Z.of_nat (length s), out)).
Proof.
  intros Hs Hscan Hp Hl.
  destruct (scan_wf s init l out wf_init Hscan)
    as (_ & Hst & _ & Hd & _ & _).
  specialize (Hst Hp). specialize (Hd Hl).
  split; [exact Hd|]. split.
  - intros Hc. destruct (digit_class c Hc) as (Hn & Hnote & Ho).
    rewrite (play_app s l out (String c t) Hs Hn Hscan).
    unfold play_rest. cbn [play_from]. rewrite Hn.
    assert (Hstep : step l c (at_end t)
              = Some (Continue (close_note l c),
                      emitted (note l) (half_tone l) (octave l)
                        (duration l * 10 + (code c - code "0")))).
    { unfold step. rewrite Hst, Hnote, Ho, Hp, Hl, Hc. cbn [negb].
      rewrite play_note_emitted, bind_Some. unfold ret, close_note.
      rewrite app_nil_r.
      now replace (duration l * 10 + code c - code "0")
        with (duration l * 10 + (code c - code "0")) by lia. }
    rewrite Hstep, bind_Some, after_app.
    destruct (play_from (close_note l c) _ t) as [[r o]|]; cbn;
      [|reflexivity].
    now rewrite !app_nil_r.
  - intros Hc Hnote Ho Hn.
    rewrite (play_app s l out (String c t) Hs Hn Hscan).
    unfold play_rest. cbn [play_from]. rewrite Hn.
    assert (Hstep : step l c (at_end t) = Some (ReturnPos, [])).
    { unfold step. now rewrite Hst, Hnote, Ho, Hp, Hl, Hc. }
    rewrite Hstep. cbn. now rewrite !app_nil_r.
Qed.

(** After ["C1"]: [6] closes the note with duration 16 (gap 62) and the
    scan goes on to D; [%] is rejected at offset 2. *)
Lemma play_second_duration_digit_witness :
  play "C16D" = Some (-1, [(note_to_freq "C" no_half 4, 62);
                           (note_to_freq "D" no_half 4, 1000)]) /\
  play "C1%D" = Some (2, []).
Proof.
  pose (l := mkLocals COMMAND 4 "C" 1 no_half true true).
  split.
  - exact (proj1 (proj2 (play_second_duration_digit "C1" l [] "6" "D"
                           eq_refl eq_refl eq_refl eq_refl)) eq_refl).
  - exact (proj2 (proj2 (play_second_duration_digit "C1" l [] "%" "D"
                           eq_refl eq_refl eq_refl eq_refl))
             eq_refl eq_refl eq_refl eq_refl).
Defined.

(** ** C7: a single note *)

(** C7. [play("C")] calls the tone callback exactly once, with the
    frequency [note_to_freq('C', 0, 4)] of C at the default octave 4 and
    the gap 1000/1 = 1000 of the default duration 1, and returns -1. *)
Theorem play_single_note :
  play "C" = Some (-1, [(note_to_freq "C" no_half 4, 1000)]).
Proof. reflexivity. Qed.

(** ** C8: the octave command *)

(** C8. [play("O5C")] calls the callback exactly once, with C resolved
    at octave 5 (gap 1000), and returns -1: the [O5] command has set the
    octave before the note is played.  The frequency is not the one
    [play("C")] passes at the default octave 4 (523 Hz against 262 Hz,
    in the reading of [note_to_freq] over the reals). *)
Theorem play_octave_command :
  play "O5C" = Some (-1, [(note_to_freq "C" no_half 5, 1000)]) /\
  play "C" = Some (-1, [(note_to_freq "C" no_half 4, 1000)]) /\
  note_to_freq "C" no_half 5 <> note_to_freq "C" no_half 4.
Proof.
  split; [reflexivity|]. split; [reflexivity|].
  rewrite note_to_freq_C4, note_to_freq_C5. discriminate.
Qed.

(** ** C9: case of the command letters *)

(** C9. Note letters, rests and octave markers are read without regard
    to case: two inputs that differ only in the case of characters among
    a-g, r, o (that is, that agree once those are put in upper case) give
    the same return value and the same calls of the callback, in the same
    order. *)
Theorem play_case_insensitive s s' :
  upcase_string s = upcase_string s' -> play s = play s'.
Proof.
  intros H. rewrite <- (play_upcase s), <- (play_upcase s'). now rewrite H.
Qed.

Lemma play_case_insensitive_witness :
  upcase_string "c#16o3r2E-%" = upcase_string "C#16O3R2e-%" /\
  play "c#16o3r2E-%" = play "C#16O3R2e-%".
Proof.
  split; [reflexivity|].
  apply (play_case_insensitive "c#16o3r2E-%" "C#16O3R2e-%"). reflexivity.
Defined.

(** ** C10: an octave marker at the end of the input *)

(** C10. When the input ends right after an octave marker read in state
    [COMMAND], [play] returns -1; the note pending before the marker, if
    any, is flushed (the calls [flush l] of its [play_note] follow those
    of the input before the marker), and the octave is the one held
    before the marker.  Here [s] is the input before the marker, [l] the
    locals it led to and [out] the calls it made. *)
Theorem play_trailing_octave_marker s l out c :
  nonul s = true ->
  scan init s = Some (Continue l, out) ->
  state l = COMMAND ->
  is_octave_marker c = true ->
  (exists lf,
     play_from init 0 (s ++ String c "") = Some ((-1, lf), out ++ flush l) /\
     octave lf = octave l /\ state lf = OCTAVE_NUMBER) /\
  play (s ++ String c "") = Some (-1, out ++ flush l).
Proof.
  intros Hs Hscan Hst Hc.
  destruct (octave_marker_class c Hc) as [Hn Hnote].
  assert (Hrun : exists lf,
     play_from init 0 (s ++ String c "") = Some ((-1, lf), out ++ flush l) /\
     octave lf = octave l /\ state lf = OCTAVE_NUMBER).
  { rewrite (play_from_app s init 0 l out (String c "") Hs Hn Hscan).
    cbn [play_from at_end]. rewrite Hn.
    unfold step, flush. rewrite Hst, Hnote, Hc.
    destruct (pending_note l) eqn:Hp.
    - rewrite play_note_emitted. cbn -[emitted].
      eexists. rewrite !app_nil_r. split; [reflexivity|]. now split.
    - cbn. eexists. split; [reflexivity|]. now split. }
  split; [exact Hrun|].
  destruct Hrun as (lf & Hrun & _). unfold play. rewrite Hrun.
  cbn. now rewrite app_nil_r.
Qed.

(** [play("CO")] plays C at the default octave and returns -1; so does
    [play("O3C2o")], with C at octave 3 and duration 2. *)
Lemma play_trailing_octave_marker_witness :
  play "CO" = Some (-1, [(note_to_freq "C" no_half 4, 1000)]) /\
  play "O3C2o" = Some (-1, [(note_to_freq "C" no_half 3, 500)]).
Proof.
  split.
  - exact (proj2 (play_trailing_octave_marker "C" (open_note init "C")
                    [] "O" eq_refl eq_refl eq_refl eq_refl)).
  - exact (proj2 (play_trailing_octave_marker "O3C2"
                    (mkLocals COMMAND 3 "C" 2 no_half true true)
                    [] "o" eq_refl eq_refl eq_refl eq_refl)).
Defined.

(** * Further properties of the parser *)

(** ** One more character after a scanned prefix *)

(** [play] on a prefix [s], scanned without rejection, followed by the
    character [c] and the rest [t]: the iteration at [c] decides. *)
Lemma play_step s l out c t f o :
  nonul s = true ->
  scan init s = Some (Continue l, out) ->
  is_nul c = false ->
  step l c (at_end t) = Some (f, o) ->
  play (s ++ String c t)
  = match f with
    | Continue l' => after (out ++ o) (play_rest l' (Z.of_nat (length s) + 1) t)
    | ReturnPos => Some (Z.of_nat (length s), out ++ o)
    end.
Proof.
  intros Hs Hscan Hn Hstep.
  rewrite (play_app s l out (String c t) Hs Hn Hscan).
  unfold play_rest. cbn [play_from]. rewrite Hn, Hstep, bind_Some.
  destruct f as [l'|].
  - rewrite after_app.
    destruct (play_from l' _ t) as [[r o']|]; cbn; [|reflexivity].
    now rewrite !app_nil_r.
  - cbn. now rewrite !app_nil_r.
Qed.

Lemma note_class c :
  is_note_or_rest c = true -> is_nul c = false /\ isdigit c = false.
Proof. each_char c; now split. Qed.

Lemma half_tone_class c :
  is_half_tone c = true ->
  is_nul c = false /\ is_note_or_rest c = false /\
  is_octave_marker c = false /\ isdigit c = false.
Proof. each_char c; now repeat split. Qed.

Lemma is_rest_spec c :
  negb (Ascii.eqb c "r") && negb (Ascii.eqb c "R") = negb (is_rest c).
Proof. unfold is_rest. now rewrite negb_orb. Qed.

(** ** Note letters *)

(** X1. A note letter or rest read in state [COMMAND] first flushes the
    pending note, with the duration and accidental read for it, and then
    becomes the pending note.  When it ends the input it is played at
    once with the default duration, gap 1000, and [play] returns -1. *)
Theorem play_note_letter s l out c t :
  nonul s = true ->
  scan init s = Some (Continue l, out) ->
  state l = COMMAND ->
  is_note_or_rest c = true ->
  (at_end t = false ->
   play (s ++ String c t)
   = after (out ++ flush l)
       (play_rest (open_note l c) (Z.of_nat (length s) + 1) t)) /\
  play (s ++ String c "")
  = Some (-1, out ++ flush l ++ [(freq_of c no_half (octave l), 1000)]).
Proof.
  intros Hs Hscan Hst Hc.
  destruct (note_class c Hc) as [Hn _]. split.
  - intros Ht.
    rewrite (play_step s l out c t _ _ Hs Hscan Hn
               (step_note l c (at_end t) Hst Hc)).
    now rewrite Ht, app_nil_r.
  - rewrite (play_step s l out c "" _ _ Hs Hscan Hn
               (step_note l c (at_end "") Hst Hc)).
    cbn. now rewrite !app_nil_r.
Qed.

Lemma play_note_letter_witness :
  play "C2d" = Some (-1, [(note_to_freq "C" no_half 4, 500);
                          (note_to_freq "D" no_half 4, 1000)]).
Proof.
  exact (proj2 (play_note_letter "C2"
                  (mkLocals COMMAND 4 "C" 2 no_half true true) [] "d" ""
                  eq_refl eq_refl eq_refl eq_refl)).
Defined.

(** ** The octave command *)

Lemma play_octave_digit_run s l out c d t :
  nonul s = true ->
  scan init s = Some (Continue l, out) ->
  state l = COMMAND ->
  is_octave_marker c = true ->
  isdigit d = true ->
  play (s ++ String c (String d t))
  = after (out ++ flush l)
      (play_rest (set_octave l d) (Z.of_nat (length s) + 2) t).
Proof.
  intros Hs Hscan Hst Hc Hd.
  destruct (octave_marker_class c Hc) as [Hn Hnote].
  destruct (digit_class d Hd) as (Hdn & _ & _).
  destruct (scan_wf s init l out wf_init Hscan) as (_ & _ & Hl & _).
  assert (Hstep : exists l1,
            step l c (at_end (String d t)) = Some (Continue l1, flush l) /\
            state l1 = OCTAVE_NUMBER /\
            pending_note l1 = false /\ length_specified l1 = false /\
            set_octave l1 d = set_octave l d).
  { unfold step, flush. rewrite Hst, Hnote, Hc.
    destruct (pending_note l) eqn:Hp.
    - rewrite play_note_emitted. cbn -[emitted]. rewrite app_nil_r.
      eexists. split; [reflexivity|]. now repeat split.
    - destruct (length_specified l) eqn:Hls; [now discriminate Hl|].
      eexists. split; [reflexivity|]. cbn. now repeat split. }
  destruct Hstep as (l1 & Hstep & Hst1 & Hp1 & Hl1 & Hset).
  rewrite (play_step s l out c (String d t) _ _ Hs Hscan Hn Hstep).
  unfold play_rest. cbn [play_from]. rewrite Hdn.
  assert (Hstep1 : step l1 d (at_end t) = Some (Continue (set_octave l d), [])).
  { unfold step. rewrite Hst1, Hd, Hp1, Hl1, <- Hset. reflexivity. }
  rewrite Hstep1, bind_Some.
  replace (Z.of_nat (length s) + 1 + 1) with (Z.of_nat (length s) + 2) by lia.
  destruct (play_from (set_octave l d) _ t) as [[r o]|]; reflexivity.
Qed.

(** X2. An octave marker read in state [COMMAND] and followed by a
    decimal digit flushes the pending note and sets the octave to the
    digit's value, between 0 and 9, for everything that follows. *)
Theorem play_octave_digit s l out c d t :
  nonul s = true ->
  scan init s = Some (Continue l, out) ->
  state l = COMMAND ->
  is_octave_marker c = true ->
  isdigit d = true ->
  play (s ++ String c (String d t))
  = after (out ++ flush l)
      (play_rest (set_octave l d) (Z.of_nat (length s) + 2) t) /\
  0 <= octave (set_octave l d) <= 9.
Proof.
  intros Hs Hscan Hst Hc Hd. split.
  - exact (play_octave_digit_run s l out c d t Hs Hscan Hst Hc Hd).
  - exact (isdigit_value d Hd).
Qed.

Lemma play_octave_digit_witness :
  play "C2o7D" = Some (-1, [(note_to_freq "C" no_half 4, 500);
                            (note_to_freq "D" no_half 7, 1000)]).
Proof.
  exact (proj1 (play_octave_digit "C2"
                  (mkLocals COMMAND 4 "C" 2 no_half true true) [] "o" "7" "D"
                  eq_refl eq_refl eq_refl eq_refl eq_refl)).
Defined.

(** X3. An octave marker read in state [COMMAND] and followed by a
    character that is not a decimal digit, a note letter included, makes
    [play] return the offset of that character; the pending note has
    been flushed by then. *)
Theorem play_octave_non_digit s l out c d t :
  nonul s = true ->
  scan init s = Some (Continue l, out) ->
  state l = COMMAND ->
  is_octave_marker c = true ->
  isdigit d = false ->
  is_nul d = false ->
  play (s ++ String c (String d t))
  = Some (Z.of_nat (length s) + 1, out ++ flush l).
Proof.
  intros Hs Hscan Hst Hc Hd Hdn.
  destruct (octave_marker_class c Hc) as [Hn Hnote].
  assert (Hstep : exists l1,
            step l c (at_end (String d t)) = Some (Continue l1, flush l) /\
            state l1 = OCTAVE_NUMBER).
  { unfold step, flush. rewrite Hst, Hnote, Hc.
    destruct (pending_note l) eqn:Hp.
    - rewrite play_note_emitted. cbn -[emitted]. rewrite app_nil_r.
      eexists. split; reflexivity.
    - eexists. split; reflexivity. }
  destruct Hstep as (l1 & Hstep & Hst1).
  rewrite (play_step s l out c (String d t) _ _ Hs Hscan Hn Hstep).
  unfold play_rest. cbn [play_from]. rewrite Hdn.
  assert (Hstep1 : step l1 d (at_end t) = Some (ReturnPos, [])).
  { unfold step. now rewrite Hst1, Hd. }
  rewrite Hstep1. cbn. now rewrite !app_nil_r.
Qed.

Lemma play_octave_non_digit_witness :
  play "C2OD" = Some (3, [(note_to_freq "C" no_half 4, 500)]).
Proof.
  exact (play_octave_non_digit "C2"
           (mkLocals COMMAND 4 "C" 2 no_half true true) [] "O" "D" ""
           eq_refl eq_refl eq_refl eq_refl eq_refl eq_refl).
Defined.

(** ** The first modifier of a pending note *)

(** X4. An accidental ([#], [+] or [-]) read while a note other than a
    rest is pending and no duration digit has been read becomes the
    note's accidental, replacing any accidental read before it; the note
    stays pending with duration 1, so that its flush is one call with
    that accidental and gap 1000. *)
Theorem play_accidental s l out c t :
  nonul s = true ->
  scan init s = Some (Continue l, out) ->
  pending_note l = true ->
  length_specified l = false ->
  is_rest (note l) = false ->
  is_half_tone c = true ->
  play (s ++ String c t)
  = after out (play_rest (set_half_tone l c) (Z.of_nat (length s) + 1) t) /\
  flush (set_half_tone l c) = [(freq_of (note l) c (octave l), 1000)].
Proof.
  intros Hs Hscan Hp Hl Hr Hc.
  destruct (half_tone_class c Hc) as (Hn & Hnote & Ho & Hd).
  destruct (scan_wf s init l out wf_init Hscan)
    as (_ & Hst & _ & _ & Hd1 & _).
  specialize (Hst Hp). specialize (Hd1 Hp Hl). split.
  - assert (Hstep : step l c (at_end t)
                    = Some (Continue (set_half_tone l c), [])).
    { unfold step. rewrite Hst, Hnote, Ho, Hp, Hl, Hc. cbn [negb andb].
      rewrite is_rest_spec, Hr. unfold set_half_tone.
      now rewrite Hst, Hp, Hl. }
    rewrite (play_step s l out c t _ _ Hs Hscan Hn Hstep).
    now rewrite app_nil_r.
  - unfold flush, set_half_tone, emitted. cbn. now rewrite Hp, Hd1.
Qed.

Lemma play_accidental_witness :
  play "C#-D" = Some (-1, [(note_to_freq "C" "-" 4, 1000);
                           (note_to_freq "D" no_half 4, 1000)]).
Proof.
  exact (proj1 (play_accidental "C#" (mkLocals COMMAND 4 "C" 1 "#" true false)
                  [] "-" "D" eq_refl eq_refl eq_refl eq_refl eq_refl eq_refl)).
Defined.

(** X5. While a note is pending and no duration digit has been read, a
    character that is not a note letter, a rest, an octave marker or a
    decimal digit, and that is not an accidental either or comes after a
    rest, makes [play] return its offset, without a call.  So an
    accidental after a rest is rejected. *)
Theorem play_first_modifier_rejected s l out c t :
  nonul s = true ->
  scan init s = Some (Continue l, out) ->
  pending_note l = true ->
  length_specified l = false ->
  is_note_or_rest c = false ->
  is_octave_marker c = false ->
  isdigit c = false ->
  is_nul c = false ->
  is_half_tone c = false \/ is_rest (note l) = true ->
  play (s ++ String c t) = Some (Z.of_nat (length s), out).
Proof.
  intros Hs Hscan Hp Hl Hnote Ho Hd Hn Hacc.
  destruct (scan_wf s init l out wf_init Hscan) as (_ & Hst & _).
  specialize (Hst Hp).
  assert (Hstep : step l c (at_end t) = Some (ReturnPos, [])).
  { unfold step. rewrite Hst, Hnote, Ho, Hp, Hl, Hd. cbn [negb].
    rewrite <- andb_assoc, is_rest_spec.
    destruct Hacc as [-> | ->]; [reflexivity|].
    now rewrite andb_false_r. }
  rewrite (play_step s l out c t _ _ Hs Hscan Hn Hstep).
  now rewrite app_nil_r.
Qed.

Lemma play_first_modifier_rejected_witness :
  play "CR#D" = Some (2, [(note_to_freq "C" no_half 4, 1000)]).
Proof.
  exact (play_first_modifier_rejected "CR"
           (mkLocals COMMAND 4 "R" 1 no_half true false)
           [(note_to_freq "C" no_half 4, 1000)] "#" "D"
           eq_refl eq_refl eq_refl eq_refl eq_refl eq_refl eq_refl eq_refl
           (or_intror eq_refl)).
Defined.

(** X6. The first decimal digit read while a note is pending becomes its
    duration; the note stays pending, and its flush is then one call
    with gap [1000 / digit], or no call for the digit 0. *)
Theorem play_first_duration_digit s l out c t :
  nonul s = true ->
  scan init s = Some (Continue l, out) ->
  pending_note l = true ->
  length_specified l = false ->
  isdigit c = true ->
  play (s ++ String c t)
  = after out (play_rest (set_duration l c) (Z.of_nat (length s) + 1) t) /\
  flush (set_duration l c)
  = (if code c =? code "0" then []
     else [(freq_of (note l) (half_tone l) (octave l),
            Z.quot 1000 (code c - code "0"))]).
Proof.
  intros Hs Hscan Hp Hl Hc.
  destruct (digit_class c Hc) as (Hn & Hnote & Ho).
  destruct (scan_wf s init l out wf_init Hscan) as (_ & Hst & _).
  specialize (Hst Hp). split.
  - assert (Hstep : step l c (at_end t)
                    = Some (Continue (set_duration l c), [])).
    { unfold step. rewrite Hst, Hnote, Ho, Hp, Hl, Hc. cbn [negb].
      assert (Hh : is_half_tone c = false) by (revert Hc; each_char c).
      rewrite Hh. cbn [andb]. unfold set_duration.
      now rewrite Hst, Hp. }
    rewrite (play_step s l out c t _ _ Hs Hscan Hn Hstep).
    now rewrite app_nil_r.
  - unfold flush, set_duration, emitted. cbn [pending_note note half_tone
      octave duration]. rewrite Hp.
    pose proof (isdigit_value c Hc) as Hv.
    destruct (code c =? code "0") eqn:H0.
    + apply Z.eqb_eq in H0. rewrite H0, Z.sub_diag. reflexivity.
    + apply Z.eqb_neq in H0.
      destruct (1 <=? code c - code "0") eqn:H1; [reflexivity|].
      apply Z.leb_gt in H1. lia.
Qed.

Lemma play_first_duration_digit_witness :
  play "C4D" = Some (-1, [(note_to_freq "C" no_half 4, 250);
                          (note_to_freq "D" no_half 4, 1000)]).
Proof.
  exact (proj1 (play_first_duration_digit "C" (open_note init "C") [] "4" "D"
                  eq_refl eq_refl eq_refl eq_refl eq_refl)).
Defined.

(** ** What the callback is called with *)

Lemma note_toupper c :
  is_note_or_rest c = true ->
  Ascii.eqb (toupper c) "R" = true \/
  (Ascii.eqb (toupper c) "R" = false /\ between "A" "G" (toupper c) = true).
Proof. each_char c; (now left) || (now right). Qed.

Lemma emitted_valid n h o d :
  is_note_or_rest n = true ->
  is_half_tone_or_none h = true ->
  0 <= o <= 9 -> d <= 99 ->
  Forall valid_call (emitted n h o d).
Proof.
  intros Hn Hh Ho Hd. unfold emitted.
  destruct (1 <=? d) eqn:H1; [|constructor].
  apply Z.leb_le in H1. constructor; [|constructor].
  split; cbn [fst snd].
  - rewrite Z.quot_div_nonneg by lia. split.
    + apply Z.div_le_lower_bound; lia.
    + apply Z.div_le_upper_bound; lia.
  - unfold freq_of.
    destruct (note_toupper n Hn) as [-> | [-> Hb]]; [now left|right].
    cbn [negb]. now exists (toupper n), h, o.
Qed.

Lemma step_calls_valid l c last :
  wf l -> is_half_tone_or_none (half_tone l) = true ->
  match step l c last with
  | Some (_, out) => Forall valid_call out
  | None => True
  end.
Proof.
  intros (Ho & Hp & Hl & Hd & Hd1 & Hn) Hh. unfold step.
  pose proof (isdigit_value c) as Hdig.
  destruct (state l) eqn:Hst, (is_note_or_rest c) eqn:Hc,
    (is_octave_marker c), (pending_note l) eqn:Hpe,
    (length_specified l) eqn:Hle, (isdigit c) eqn:Hdc, last;
    cbn -[play_note];
    rewrite ?play_note_emitted; cbn -[emitted play_note];
    rewrite ?play_note_emitted; cbn -[emitted play_note];
    try (destruct (is_half_tone c && _ && _); cbn -[emitted]);
    repeat (match goal with
            | |- Forall _ (_ ++ _) => apply Forall_app; split
            end);
    try apply Forall_nil;
    apply emitted_valid; auto;
    try (specialize (Hd eq_refl); lia);
    try (specialize (Hd1 eq_refl eq_refl); lia);
    try (specialize (Hdig eq_refl); specialize (Hd eq_refl);
         change (code "0") with 48 in *; lia);
    lia.
Qed.

Lemma step_valid l c last f out :
  wf_half l -> step l c last = Some (f, out) ->
  Forall valid_call out /\
  (forall l', f = Continue l' -> wf_half l').
Proof.
  intros [Hwf Hh] Hstep. split.
  - pose proof (step_calls_valid l c last Hwf Hh) as Hv.
    now rewrite Hstep in Hv.
  - intros l' ->. split; [exact (step_wf _ _ _ _ _ Hwf Hstep)|].
    revert Hstep. unfold step.
    destruct (state l), (is_note_or_rest c), (is_octave_marker c),
      (pending_note l), (length_specified l), (isdigit c), last;
      cbn -[play_note];
      repeat (rewrite play_note_emitted; cbn -[emitted]);
      try (destruct (is_half_tone c && _ && _) eqn:Hacc; cbn -[emitted]);
      unfold ret; intros [= <- _] || intros [=];
      cbn [half_tone]; try exact Hh; try reflexivity.
    all: apply andb_prop in Hacc as [Hacc _];
      apply andb_prop in Hacc as [Hacc _];
      unfold is_half_tone_or_none; rewrite Hacc; apply orb_true_r.
Qed.

Lemma wf_half_init : wf_half init.
Proof. split; [exact wf_init | reflexivity]. Qed.

Lemma play_from_valid s : forall l pos r out,
  wf_half l -> play_from l pos s = Some (r, out) -> Forall valid_call out.
Proof.
  induction s as [|c rest IH]; intros l pos r out Hwf Hrun;
    cbn [play_from] in Hrun.
  - injection Hrun as _ <-. constructor.
  - destruct (is_nul c); [injection Hrun as _ <-; constructor|].
    destruct (step l c (at_end rest)) as [[f o1]|] eqn:Hstep; [|discriminate].
    destruct (step_valid _ _ _ _ _ Hwf Hstep) as [Hv Hnext].
    rewrite bind_Some in Hrun. destruct f as [l1|].
    + destruct (play_from l1 (pos + 1) rest) as [[r1 o2]|] eqn:Hrest;
        [|discriminate].
      injection Hrun as _ <-. apply Forall_app. split; [exact Hv|].
      exact (IH _ _ _ _ (Hnext l1 eq_refl) Hrest).
    + injection Hrun as _ <-. apply Forall_app. split; [exact Hv|constructor].
Qed.

Lemma play_calls_valid_helper s r out :
  play s = Some (r, out) -> Forall valid_call out.
Proof.
  unfold play. intros Hrun.
  destruct (play_from init 0 s) as [[rl o]|] eqn:Hfrom; [|discriminate].
  cbn in Hrun. injection Hrun as _ <-. rewrite app_nil_r.
  exact (play_from_valid s init 0 rl o wf_half_init Hfrom).
Qed.

(** X7. Whatever the input, every call [play] makes has a gap between
    10 and 1000 milliseconds and a frequency that is 0, for a rest, or
    [note_to_freq] of an upper-case letter from A to G, with no
    accidental or one of [#], [+], [-], at an octave between 0 and 9. *)
Theorem play_calls_valid s r out :
  play s = Some (r, out) -> Forall valid_call out.
Proof. exact (play_calls_valid_helper s r out). Qed.

Lemma play_calls_valid_witness :
  Forall valid_call [(note_to_freq "C" "#" 4, 62); (0, 500);
                     (note_to_freq "E" no_half 3, 1000)].
Proof.
  exact (play_calls_valid "c#16o3r2e" (-1) _ eq_refl).
Defined.

(** ** How many calls, and which for a string of letters *)

Lemma emitted_length n h o d : (List.length (emitted n h o d) <= 1)%nat.
Proof. unfold emitted. destruct (1 <=? d); cbn; lia. Qed.

Lemma step_calls_count l c last :
  match step l c last with
  | Some (Continue l', out) =>
      (List.length out
       <= pending_count l + (if is_note_or_rest c && last then 1 else 0))%nat /\
      (List.length out + pending_count l'
       <= pending_count l + (if is_note_or_rest c then 1 else 0)
          + (if is_note_or_rest c && last then 1 else 0))%nat
  | Some (ReturnPos, out) => out = []
  | None => True
  end.
Proof.
  unfold step, pending_count.
  destruct (state l), (is_note_or_rest c), (is_octave_marker c),
    (pending_note l) eqn:Hp, (length_specified l), (isdigit c), last;
    cbn -[play_note];
    rewrite ?play_note_emitted; cbn -[emitted play_note];
    rewrite ?play_note_emitted; cbn -[emitted play_note];
    try (destruct (is_half_tone c && _ && _); cbn -[emitted]);
    rewrite ?length_app, ?Hp; cbn [List.length];
    try reflexivity;
    repeat match goal with
           | |- context [List.length (emitted ?n ?h ?o ?d)] =>
               pose proof (emitted_length n h o d);
               generalize dependent (List.length (emitted n h o d)); intros
           end;
    lia.
Qed.

Lemma play_from_calls_count s : forall l pos r out,
  play_from l pos s = Some (r, out) ->
  (List.length out <= pending_count l + count_notes s)%nat.
Proof.
  induction s as [|c rest IH]; intros l pos r out Hrun;
    cbn [play_from count_notes] in *.
  - injection Hrun as _ <-. cbn. lia.
  - destruct (is_nul c); [injection Hrun as _ <-; cbn; lia|].
    pose proof (step_calls_count l c (at_end rest)) as Hc.
    destruct (step l c (at_end rest)) as [[f o1]|]; [|discriminate].
    rewrite bind_Some in Hrun. destruct f as [l1|].
    + destruct Hc as [Hlast Hnext].
      destruct (at_end rest) eqn:He.
      * rewrite (play_from_at_end rest l1 (pos + 1) He) in Hrun.
        injection Hrun as _ <-. rewrite app_nil_r.
        destruct (is_note_or_rest c); cbn in *; lia.
      * destruct (play_from l1 (pos + 1) rest) as [[r1 o2]|] eqn:Hrest;
          [|discriminate].
        injection Hrun as _ <-. rewrite length_app.
        pose proof (IH _ _ _ _ Hrest).
        rewrite andb_false_r in Hnext. lia.
    + subst o1. injection Hrun as _ <-. cbn. lia.
Qed.

(** X8. [play] makes at most as many calls as the input has note
    letters and rests; an input without any makes no call. *)
Theorem play_calls_count s r out :
  play s = Some (r, out) -> (List.length out <= count_notes s)%nat.
Proof.
  unfold play. intros Hrun.
  destruct (play_from init 0 s) as [[rl o]|] eqn:Hfrom; [|discriminate].
  cbn in Hrun. injection Hrun as _ <-. rewrite app_nil_r.
  exact (play_from_calls_count s init 0 rl o Hfrom).
Qed.

Lemma play_calls_count_witness :
  (List.length [(note_to_freq "C" "#" 4%Z, 62%Z); (0%Z, 500%Z)]
   <= count_notes "c#16o3r2e4")%nat.
Proof.
  exact (play_calls_count "c#16o3r2e4" (-1) _ eq_refl).
Defined.

Lemma play_from_letters s : forall l pos,
  state l = COMMAND -> all_notes s = true -> s <> EmptyString ->
  exists lf,
    play_from l pos s
    = Some ((-1, lf),
            flush l ++ map (fun c => (freq_of c no_half (octave l), 1000))
                         (list_ascii_of_string s)).
Proof.
  induction s as [|c rest IH]; intros l pos Hst Hall Hne; [easy|].
  cbn [all_notes] in Hall. apply andb_prop in Hall as [Hc Hall].
  destruct (note_class c Hc) as [Hn _].
  cbn [play_from list_ascii_of_string map]. rewrite Hn.
  rewrite (step_note l c (at_end rest) Hst Hc), bind_Some.
  destruct rest as [|c' rest'].
  - cbn. eexists. now rewrite !app_nil_r.
  - assert (Hc' : is_note_or_rest c' = true).
    { cbn [all_notes] in Hall. now apply andb_prop in Hall as [? _]. }
    destruct (note_class c' Hc') as [Hn' _].
    cbn [at_end]. rewrite Hn'.
    destruct (IH (open_note l c) (pos + 1) Hst Hall) as (lf & Hrest);
      [discriminate|].
    rewrite Hrest. exists lf. now rewrite app_nil_r.
Qed.

(** X9. On an input made of note letters and rests only, [play] returns
    -1 after one call per character, in the order of the input, each at
    the default octave 4 with gap 1000 (frequency 0 for a rest). *)
Theorem play_letters s :
  all_notes s = true ->
  play s = Some (-1, map (fun c => (freq_of c no_half 4, 1000))
                       (list_ascii_of_string s)).
Proof.
  intros Hall. unfold play. destruct s as [|c rest]; [reflexivity|].
  destruct (play_from_letters (String c rest) init 0 eq_refl Hall)
    as (lf & Hrun); [discriminate|].
  rewrite Hrun. cbn. now rewrite app_nil_r.
Qed.

Lemma play_letters_witness :
  play "CrE" = Some (-1, [(note_to_freq "C" no_half 4, 1000); (0, 1000);
                          (note_to_freq "E" no_half 4, 1000)]).
Proof.
  exact (play_letters "CrE" eq_refl).
Defined.

(** ** Inputs and locals that [play] does not tell apart *)

Section Simulation.

(** A relation [R] on locals and a renaming [g] of characters such that
    related locals, at a character and at its renaming, make the same
    calls and stay related. *)
Variable R : locals -> locals -> Prop.
Variable g : ascii -> ascii.
Hypothesis g_nul : forall c, is_nul (g c) = is_nul c.
Hypothesis step_agree : forall l l' c last,
  R l l' -> flow_agree R (step l c last) (step l' (g c) last).

Lemma at_end_map_string s : at_end (map_string g s) = at_end s.
Proof. destruct s as [|c rest]; [reflexivity | apply g_nul]. Qed.

Lemma play_from_agree s : forall l l' pos,
  R l l' ->
  map_result fst (play_from l pos s)
  = map_result fst (play_from l' pos (map_string g s)).
Proof.
  induction s as [|c rest IH]; intros l l' pos HR; [reflexivity|].
  cbn [map_string play_from]. rewrite g_nul.
  destruct (is_nul c); [reflexivity|].
  rewrite at_end_map_string.
  pose proof (step_agree l l' c (at_end rest) HR) as Hstep.
  unfold flow_agree in Hstep.
  destruct (step l c (at_end rest)) as [[[l1|] o1]|];
    destruct (step l' (g c) (at_end rest)) as [[[l1'|] o1']|];
    try contradiction.
  - destruct Hstep as [HR1 <-]. rewrite !bind_Some.
    specialize (IH l1 l1' (pos + 1) HR1).
    destruct (play_from l1 (pos + 1) rest) as [[[r lf] o2]|];
      destruct (play_from l1' (pos + 1) (map_string g rest))
        as [[[r' lf'] o2']|];
      cbn in IH |- *; try discriminate; [|reflexivity].
    now injection IH as <- <-.
  - subst o1'. reflexivity.
Qed.

End Simulation.

Lemma play_map_result s :
  play s = map_result fst (play_from init 0 s).
Proof.
  unfold play. destruct (play_from init 0 s) as [[[r lf] out]|];
    cbn; [|reflexivity].
  now rewrite app_nil_r.
Qed.

Lemma play_rest_map_result l pos s :
  play_rest l pos s = map_result fst (play_from l pos s).
Proof.
  unfold play_rest. destruct (play_from l pos s) as [[[r lf] out]|];
    cbn; [|reflexivity].
  now rewrite app_nil_r.
Qed.

(** *** [+] and [#] *)

Lemma half_steps_sharp n h : half_steps n (sharp h) = half_steps n h.
Proof. unfold half_steps. each_char h. Qed.

Lemma play_note_sharp n h o d : play_note n (sharp h) o d = play_note n h o d.
Proof.
  unfold play_note, note_to_freq. now rewrite half_steps_sharp.
Qed.

Lemma sharp_other c : Ascii.eqb c "+" = false -> sharp c = c.
Proof. unfold sharp. now intros ->. Qed.

Lemma step_sharp l c last :
  flow_agree (fun l1 l1' => l1' = sharp_locals l1)
    (step l c last) (step (sharp_locals l) (sharp c) last).
Proof.
  destruct l as [st o n d h p ls].
  destruct (Ascii.eqb c "+") eqn:Hplus.
  - apply Ascii.eqb_eq in Hplus. subst c.
    unfold step, sharp_locals, flow_agree.
    cbn [state octave note duration half_tone pending_note length_specified].
    rewrite !play_note_sharp.
    change (is_note_or_rest (sharp "+")) with false.
    change (is_note_or_rest "+") with false.
    change (is_octave_marker (sharp "+")) with false.
    change (is_octave_marker "+") with false.
    change (isdigit (sharp "+")) with false.
    change (isdigit "+") with false.
    change (is_half_tone (sharp "+")) with true.
    change (is_half_tone "+") with true.
    destruct st, p, ls; cbn -[play_note sharp];
      try (destruct (negb (n =? "r")%char && negb (n =? "R")%char);
           cbn -[play_note sharp]);
      auto.
  - rewrite (sharp_other c Hplus).
    unfold step, sharp_locals, flow_agree.
    cbn [state octave note duration half_tone pending_note length_specified].
    rewrite !play_note_sharp.
    assert (Hc : is_half_tone c = true -> sharp c = c)
      by (intros _; exact (sharp_other c Hplus)).
    destruct st, (is_note_or_rest c), (is_octave_marker c), p, ls,
      (isdigit c), last;
      cbn -[play_note sharp];
      rewrite ?play_note_emitted; cbn -[emitted play_note sharp];
      rewrite ?play_note_emitted; cbn -[emitted play_note sharp];
      try (destruct (is_half_tone c && _ && _) eqn:Hacc;
           cbn -[emitted sharp]);
      auto.
    all: apply andb_prop in Hacc as [Hacc _];
      apply andb_prop in Hacc as [Hacc _];
      split; [|reflexivity]; now rewrite (Hc Hacc).
Qed.

Lemma play_sharp s : play (map_string sharp s) = play s.
Proof.
  rewrite !play_map_result. symmetry.
  apply (play_from_agree (fun l1 l1' => l1' = sharp_locals l1) sharp).
  - intros c. each_char c.
  - intros l l' c last ->. apply step_sharp.
  - reflexivity.
Qed.

(** X10. [+] and [#] are the same accidental: two inputs that agree once
    every [+] is written [#] give the same return value and the same
    calls. *)
Theorem play_plus_is_sharp s s' :
  map_string sharp s = map_string sharp s' -> play s = play s'.
Proof.
  intros H. rewrite <- (play_sharp s), <- (play_sharp s'). now rewrite H.
Qed.

Lemma play_plus_is_sharp_witness :
  play "C+D#2E+16%" = play "C#D+2E#16%".
Proof.
  exact (play_plus_is_sharp "C+D#2E+16%" "C#D+2E#16%" eq_refl).
Defined.

(** *** Octaves 0 and 1 *)

(** For [octave == 0] the frequency is divided by [pow(2.0, -0)], that
    is by 1, and for [octave == 1] it is left as it is. *)
Lemma note_to_freq_octave_0_1 n h : note_to_freq n h 0 = note_to_freq n h 1.
Proof.
  unfold note_to_freq.
  change (1 <? 0) with false. change (0 <? 1) with true.
  change (1 <? 1) with false. cbv iota.
  change (IZR (- 0)) with 0%R. rewrite Rpower_O by lra.
  f_equal. lra.
Qed.

Lemma note_to_freq_same_pitch n h o o' :
  same_pitch_octave o o' -> note_to_freq n h o = note_to_freq n h o'.
Proof.
  intros [-> | [[-> | ->] [-> | ->]]];
    auto using note_to_freq_octave_0_1, eq_sym.
Qed.

Lemma play_note_same_pitch n h o o' d :
  same_pitch_octave o o' -> play_note n h o d = play_note n h o' d.
Proof.
  intros Ho. unfold play_note.
  now rewrite (note_to_freq_same_pitch _ h o o' Ho).
Qed.

Lemma step_same_but_octave l l' c last :
  same_but_octave l l' ->
  flow_agree same_but_octave (step l c last) (step l' c last).
Proof.
  destruct l as [st o n d h p ls], l' as [st' o' n' d' h' p' ls'].
  unfold same_but_octave. cbn.
  intros (<- & <- & <- & <- & <- & <- & Ho).
  unfold step, flow_agree.
  cbn [state octave note duration half_tone pending_note length_specified].
  rewrite <- !(play_note_same_pitch _ _ o o' _ Ho).
  destruct st, (is_note_or_rest c), (is_octave_marker c), p, ls,
    (isdigit c), last;
    cbn -[play_note];
    rewrite ?play_note_emitted; cbn -[emitted play_note];
    rewrite ?play_note_emitted; cbn -[emitted play_note];
    try (destruct (is_half_tone c && _ && _); cbn -[emitted]);
    unfold same_pitch_octave; cbn; auto 10.
Qed.

Lemma play_rest_same_but_octave l l' pos s :
  same_but_octave l l' -> play_rest l pos s = play_rest l' pos s.
Proof.
  intros HR. rewrite !play_rest_map_result.
  replace s with (map_string (fun c => c) s) at 2
    by (induction s as [|c rest IH]; cbn; congruence).
  apply (play_from_agree same_but_octave (fun c => c)); auto.
  intros. now apply step_same_but_octave.
Qed.

(** X11. Octaves 0 and 1 sound the same: [note_to_freq] gives the same
    frequency at both, and an octave command with digit 0 leads to the
    same return value and the same calls as one with digit 1. *)
Theorem play_octave_0_is_1 s l out c t :
  nonul s = true ->
  scan init s = Some (Continue l, out) ->
  state l = COMMAND ->
  is_octave_marker c = true ->
  (forall n h, note_to_freq n h 0 = note_to_freq n h 1) /\
  play (s ++ String c (String "0" t)) = play (s ++ String c (String "1" t)).
Proof.
  intros Hs Hscan Hst Hc. split; [exact note_to_freq_octave_0_1|].
  rewrite (play_octave_digit_run s l out c "0" t Hs Hscan Hst Hc eq_refl).
  rewrite (play_octave_digit_run s l out c "1" t Hs Hscan Hst Hc eq_refl).
  f_equal. apply play_rest_same_but_octave.
  unfold same_but_octave, same_pitch_octave, set_octave. cbn. auto 10.
Qed.

Lemma play_octave_0_is_1_witness :
  play "Co0DE#" = play "Co1DE#".
Proof.
  exact (proj2 (play_octave_0_is_1 "C" (open_note init "C") [] "o" "DE#"
                  eq_refl eq_refl eq_refl eq_refl)).
Defined.

(** ** Calls are made in the order of the input *)

(** X12. The calls made while a prefix of the input is scanned come
    first and are not changed by what follows the prefix; if [play]
    rejects a character, it is one after the prefix. *)
Theorem play_prefix_calls s l out t :
  nonul s = true ->
  scan init s = Some (Continue l, out) ->
  at_end t = false ->
  exists r out',
    play (s ++ t) = Some (r, out ++ out') /\
    (r = -1 \/ Z.of_nat (length s) <= r).
Proof.
  intros Hs Hscan Ht.
  rewrite (play_app s l out t Hs Ht Hscan). unfold play_rest.
  destruct (play_from_defined t l (Z.of_nat (length s)))
    as (r & lf & out' & Hrun & Hr).
  exists r, out'. rewrite Hrun. cbn. rewrite !app_nil_r.
  split; [reflexivity | lia].
Qed.

Lemma play_prefix_calls_witness :
  exists r out',
    play ("C2D" ++ "4%E")
    = Some (r, [(note_to_freq "C" no_half 4, 500)] ++ out') /\
    (r = -1 \/ Z.of_nat (length "C2D") <= r).
Proof.
  exact (play_prefix_calls "C2D" (open_note (mkLocals COMMAND 4 "C" 2 no_half
                                               true true) "D")
           [(note_to_freq "C" no_half 4, 500)] "4%E"
           eq_refl eq_refl eq_refl).
Defined.

(** ** The range of the frequencies *)

Lemma half_steps_delta n h :
  half_steps n h = half_steps n no_half + 1 \/
  half_steps n h = half_steps n no_half - 1 \/
  half_steps n h = half_steps n no_half.
Proof. unfold half_steps. each_char h; auto. Qed.

Lemma half_steps_letter n :
  between "A" "G" n = true -> -21 <= half_steps n no_half <= -10.
Proof. each_char n; intros _; cbv; split; discriminate. Qed.

Lemma Rpower_2_bounds (x : R) :
  (-2 <= x <= 9)%R -> (/ 4 <= Rpower 2 x <= 512)%R.
Proof.
  intros [Hlo Hhi]. split.
  - replace (/ 4)%R with (Rpower 2 (- INR 2)).
    + apply Rle_Rpower; [lra | simpl; lra].
    + rewrite Rpower_Ropp, Rpower_pow by lra. simpl. f_equal. lra.
  - replace 512%R with (Rpower 2 (INR 9)).
    + apply Rle_Rpower; [lra | simpl; lra].
    + rewrite Rpower_pow by lra. simpl. lra.
Qed.

Lemma round_bounds (x : R) (a b : Z) :
  (0 <= x)%R -> (IZR a - / 2 <= x)%R -> (x < IZR b + / 2)%R ->
  a <= round x <= b.
Proof.
  intros H0 Ha Hb. unfold round.
  destruct (Rle_dec 0 x) as [_|H]; [|contradiction].
  destruct (base_Int_part (x + / 2)) as [Hle Hgt]. split.
  - assert (Hlt : (IZR (a - 1) < IZR (Int_part (x + / 2)))%R)
      by (rewrite minus_IZR; lra).
    apply lt_IZR in Hlt. lia.
  - assert (Hlt : (IZR (Int_part (x + / 2)) < IZR (b + 1))%R)
      by (rewrite plus_IZR; lra).
    apply lt_IZR in Hlt. lia.
Qed.

Lemma note_to_freq_range n h o :
  between "A" "G" n = true -> 0 <= o <= 9 ->
  14 <= note_to_freq n h o <= 28160.
Proof.
  intros Hn Ho. unfold note_to_freq, base_freq.
  pose proof (half_steps_letter n Hn) as Hb.
  assert (Hh : -22 <= half_steps n h <= -9)
    by (destruct (half_steps_delta n h) as [-> | [-> | ->]]; lia).
  set (hs := half_steps n h) in *.
  assert (Hp : (/ 4 <= Rpower 2 (IZR hs / 12) <= 1)%R).
  { assert (HR : (-22 <= IZR hs <= -9)%R)
      by (split; apply IZR_le; lia).
    split; [apply Rpower_2_bounds; lra|].
    rewrite <- (Rpower_O 2) by lra.
    apply Rle_Rpower; lra. }
  set (p := Rpower 2 (IZR hs / 12)) in *.
  destruct (1 <? o) eqn:H1.
  - assert (HR : (0 <= IZR o <= 9)%R) by (split; apply IZR_le; lia).
    assert (Hs : (1 <= Rpower 2 (IZR o) <= 512)%R).
    { split; [|apply Rpower_2_bounds; lra].
      rewrite <- (Rpower_O 2) at 1 by lra.
      apply Rle_Rpower; lra. }
    apply round_bounds; nra.
  - apply Z.ltb_ge in H1. destruct (o <? 1) eqn:H0.
    + apply Z.ltb_lt in H0. assert (o = 0) by lia. subst o.
      change (IZR (- 0)) with 0%R. rewrite Rpower_O by lra.
      apply round_bounds; lra.
    + apply round_bounds; lra.
Qed.

Lemma rest_toupper c :
  is_note_or_rest c = true ->
  (is_rest c = true /\ Ascii.eqb (toupper c) "R" = true) \/
  (is_rest c = false /\ Ascii.eqb (toupper c) "R" = false /\
   between "A" "G" (toupper c) = true).
Proof. each_char c; (now left) || (now right). Qed.

Lemma freq_of_range c h o :
  is_note_or_rest c = true -> 0 <= o <= 9 ->
  (is_rest c = true /\ freq_of c h o = 0) \/
  (is_rest c = false /\ 14 <= freq_of c h o <= 28160).
Proof.
  intros Hc Ho. unfold freq_of.
  destruct (rest_toupper c Hc) as [[Hr ->] | (Hr & -> & Hn)];
    [now left | right].
  split; [exact Hr|]. exact (note_to_freq_range (toupper c) h o Hn Ho).
Qed.

(** X13. At the octaves 0 to 9 that [play] uses, [play_note] passes the
    callback frequency 0 for a rest and a frequency between 14 and 28160
    for a note letter, of either case and with any accidental: the
    frequency of a note is never 0 or negative, and it fits the [int]
    the callback takes.  So every call [play] makes has frequency 0 or
    one between 14 and 28160. *)
Theorem play_calls_frequency :
  (forall c h o d,
     is_note_or_rest c = true -> 0 <= o <= 9 -> 1 <= d ->
     exists f,
       play_note c h o d = Some (tt, [(f, Z.quot 1000 d)]) /\
       ((is_rest c = true /\ f = 0) \/
        (is_rest c = false /\ 14 <= f <= 28160))) /\
  (forall s r out,
     play s = Some (r, out) ->
     Forall (fun t : tone => fst t = 0 \/ 14 <= fst t <= 28160) out).
Proof.
  split.
  - intros c h o d Hc Ho Hd. exists (freq_of c h o). split.
    + rewrite play_note_emitted. unfold emitted.
      destruct (1 <=? d) eqn:H1; [reflexivity|].
      apply Z.leb_gt in H1. lia.
    + exact (freq_of_range c h o Hc Ho).
  - intros s r out Hrun.
    pose proof (play_calls_valid_helper s r out Hrun) as Hv.
    clear Hrun. induction Hv as [|t out' [_ Ht] _ IH]; [constructor|].
    constructor; [|exact IH].
    destruct Ht as [H0 | (n & h & o & Hn & _ & Ho & ->)]; [now left|right].
    exact (note_to_freq_range n h o Hn Ho).
Qed.

(** The note c sharp at octave 4 with duration 16, and the calls of an
    input with a note, a rest and an octave command. *)
Lemma play_calls_frequency_witness :
  (exists f,
     play_note "c" "#" 4 16 = Some (tt, [(f, Z.quot 1000 16)]) /\
     ((is_rest "c" = true /\ f = 0) \/
      (is_rest "c" = false /\ 14 <= f <= 28160))) /\
  Forall (fun t : tone => fst t = 0 \/ 14 <= fst t <= 28160)
    [(note_to_freq "C" "#" 4, 62); (0, 500);
     (note_to_freq "E" no_half 3, 1000)].
Proof.
  split.
  - apply (proj1 play_calls_frequency "c" "#" 4 16); [reflexivity | lia | lia].
  - exact (proj2 play_calls_frequency "c#16o3r2e"%string (-1) _ eq_refl).
Defined.
